(** * Sodium::Key -- a key held in protected memory (include/key.h)

    A shallow embedding of the class [Sodium::Key] of sodium-wrapper and of
    the few libsodium entry points it forwards to.  The key's bytes live in
    a guarded allocation whose page protection can be toggled; the class
    itself only holds the [std::vector] that owns that allocation.

    Three kinds of result are kept apart, as the program keeps them apart:
    a normal return, a thrown [std::runtime_error] (the caller may catch it
    and go on with the state the throw left behind), and a hardware trap
    (a write to a page that is not writable, a read of a page that is not
    readable): the process is gone and there is no state left to observe. *)

From Stdlib Require Import ZArith.
From Stdlib.Strings Require Import Byte.
From stdpp Require Import base option list gmap strings.

Local Open Scope Z_scope.

(** ** Protected memory *)

(** A pointer returned by the allocator.  [nullptr] is not one of them. *)
Definition addr := positive.

(** What mprotect() currently allows on the pages of an allocation. *)
Inductive protection := NoAccess | ReadOnly | ReadWrite.

Definition readable (p : protection) : bool :=
  match p with NoAccess => false | _ => true end.

Definition writable (p : protection) : bool :=
  match p with ReadWrite => true | _ => false end.

(** One guarded allocation: its bytes and the protection of its pages. *)
Record region := Region { cells : list byte; prot : protection }.

(** The part of the process state the class can reach: the guarded
    allocations that are alive, and how many bytes have been drawn from
    the random source so far. *)
Record world := World { heap : gmap addr region; drawn : nat }.

(** Replace (or add) the allocation at [p]. *)
Definition set_region (w : world) (p : addr) (r : region) : world :=
  World (<[p := r]> (heap w)) (drawn w).

(** ** Results of a call *)

Inductive outcome (A : Type) : Type :=
| Ok (a : A) (w : world)            (* returned normally *)
| Throw (what : string) (w : world) (* threw std::runtime_error {what} *)
| Trap.                             (* the process was terminated *)
Arguments Ok {A} a w.
Arguments Throw {A} what w.
Arguments Trap {A}.

Definition M (A : Type) : Type := world -> outcome A.

Definition ret {A} (a : A) : M A := fun w => Ok a w.

Definition bind {A B} (m : M A) (f : A -> M B) : M B :=
  fun w => match m w with
           | Ok a w' => f a w'
           | Throw what w' => Throw what w'
           | Trap => Trap
           end.

Definition throw {A} (what : string) : M A := fun w => Throw what w.

Declare Scope prog_scope.
Delimit Scope prog_scope with prog.
Notation "'do' x <- m ; k" := (bind m (fun x => k))
  (at level 10, x name, m at level 99, k at level 200) : prog_scope.
Notation "m ;; k" := (bind m (fun _ => k))
  (at level 100, k at level 200, right associativity) : prog_scope.
Local Open Scope prog_scope.

(** The state a call leaves behind, when the process survives it. *)
Definition survives {A} (o : outcome A) : option world :=
  match o with
  | Ok _ w | Throw _ w => Some w
  | Trap => None
  end.

Definition returns {A} (o : outcome A) : bool :=
  match o with Ok _ _ => true | _ => false end.


(** ** Raw accesses to an allocation

    These are the loads and stores the libsodium routines and the vector
    perform through a raw pointer.  An access of zero bytes touches no
    page.  An access outside the allocation runs into the guard page. *)

Definition load (p : addr) (n : nat) : M (list byte) :=
  fun w => match heap w !! p with
           | None => Trap
           | Some r =>
               if (n =? 0)%nat then Ok [] w
               else if readable (prot r) && (n <=? length (cells r))%nat
                    then Ok (take n (cells r)) w
                    else Trap
           end.

Definition store (p : addr) (bs : list byte) : M unit :=
  fun w => match heap w !! p with
           | None => Trap
           | Some r =>
               if (length bs =? 0)%nat then Ok tt w
               else if writable (prot r) && (length bs <=? length (cells r))%nat
                    then Ok tt (set_region w p
                                  (Region (bs ++ drop (length bs) (cells r)) (prot r)))
                    else Trap
           end.

(** ** libsodium, as far as key.h uses it

    libsodium is not part of the repository.  Its constants are taken as
    they come from <sodium.h>, its key derivation and its random source as
    unknown functions: [pwhash] gives the return code of crypto_pwhash()
    and the bytes it leaves in the output buffer, [entropy] the stream of
    bytes randombytes_buf() hands out. *)

Class Libsodium := {
  crypto_pwhash_SALTBYTES : nat;
  crypto_pwhash_MEMLIMIT_INTERACTIVE : Z;
  crypto_pwhash_OPSLIMIT_INTERACTIVE : Z;
  crypto_pwhash_MEMLIMIT_MODERATE : Z;
  crypto_pwhash_OPSLIMIT_MODERATE : Z;
  crypto_pwhash_MEMLIMIT_SENSITIVE : Z;
  crypto_pwhash_OPSLIMIT_SENSITIVE : Z;
  crypto_pwhash_ALG_DEFAULT : Z;
  pwhash : nat -> string -> list byte -> Z -> Z -> Z -> Z * list byte;
  entropy : nat -> byte;
}.

(** sodium_is_zero(): 1 when all [n] bytes are zero. *)
Definition sodium_is_zero (bs : list byte) : bool :=
  forallb (fun b => Byte.eqb b x00) bs.

(** sodium_memzero(p, n): overwrite [n] bytes at [p] with zero. *)
Definition sodium_memzero (p : addr) (n : nat) : M unit :=
  store p (replicate n x00).

(** randombytes_buf(p, n): fill [n] bytes at [p] from the random source. *)
Definition randombytes_buf `{Libsodium} (p : addr) (n : nat) : M unit :=
  fun w => store p (map entropy (seq (drawn w) n))
                 (World (heap w) (drawn w + n)%nat).

(** crypto_pwhash(out, outlen, passwd, passwdlen, salt, opslimit, memlimit,
    alg): writes [outlen] bytes at [out] and returns 0, or returns
    non-zero, in which case the spec calls the [outlen] bytes undefined. *)
Definition crypto_pwhash `{Libsodium} (out : addr) (outlen : nat)
    (passwd : string) (salt : list byte) (opslimit memlimit alg : Z) : M Z :=
  let '(rc, bs) := pwhash outlen passwd salt opslimit memlimit alg in
  store out (resize outlen x00 bs) ;; ret rc.

(** ** The allocator SodiumAlloc<unsigned char> (alloc.h) *)

Module SodiumAlloc.

(** Modelled from the spec: alloc.h is not among the sources.  Section 4.1:
    allocate(n) reserves a region that holds [n] bytes and returns a handle
    to it; section 4.2: a key created without randomizing is left
    read-write and zero-filled, "allocator's responsibility".  The handle
    is one no live allocation has.  A request for no bytes is served like
    any other: section 3 permits keys of length 0 and section 4.1 makes
    no case of them. *)
Definition allocate (n : nat) : M addr :=
  fun w => let p := fresh (dom (heap w)) in
           Ok p (set_region w p (Region (replicate n x00) ReadWrite)).

(** Modelled from the spec: section 4.1, setNoAccess / setReadOnly /
    setReadWrite change the page protection of the allocation behind the
    handle, whatever it was before. *)
Definition mprotect (access : protection) (p : addr) : M unit :=
  fun w => match heap w !! p with
           | None => Trap
           | Some r => Ok tt (set_region w p (Region (cells r) access))
           end.

Definition noaccess : addr -> M unit := mprotect NoAccess.
Definition readonly : addr -> M unit := mprotect ReadOnly.
Definition readwrite : addr -> M unit := mprotect ReadWrite.

End SodiumAlloc.

(** ** class Sodium::Key *)

Module Key.

(** [key_t keydata]: the vector, known by the allocation it owns. *)
Record t := Make { keydata : addr }.

(** using strength_t = enum class Strength { low, medium, high };
    an object of the enumeration holds any value of its underlying
    type, which is what the [default:] label of setpass() is for. *)
Definition strength_t := Z.
Definition low : strength_t := 0.
Definition medium : strength_t := 1.
Definition high : strength_t := 2.

Definition KEYSIZE_SALT `{Libsodium} : nat := crypto_pwhash_SALTBYTES.

(** const unsigned char *data() const *)
Definition data (k : t) : addr := keydata k.

(** [keydata.size()], read from the vector and not from its pages. *)
Definition size (k : t) : M nat :=
  fun w => match heap w !! keydata k with
           | None => Trap
           | Some r => Ok (length (cells r)) w
           end.

Definition noaccess (k : t) : M unit := SodiumAlloc.noaccess (data k).
Definition readonly (k : t) : M unit := SodiumAlloc.readonly (data k).
Definition readwrite (k : t) : M unit := SodiumAlloc.readwrite (data k).

Definition initialize `{Libsodium} (k : t) : M unit :=
  do n <- size k;
  randombytes_buf (data k) n.

Definition destroy (k : t) : M unit :=
  readwrite k ;;
  do n <- size k;
  sodium_memzero (data k) n.

Definition setpass `{Libsodium} (password : string) (salt : list byte)
    (strength : strength_t) (k : t) : M unit :=
  do limits <-
    (if strength =? low then
       ret (crypto_pwhash_MEMLIMIT_INTERACTIVE, crypto_pwhash_OPSLIMIT_INTERACTIVE)
     else if strength =? medium then
       ret (crypto_pwhash_MEMLIMIT_MODERATE, crypto_pwhash_OPSLIMIT_MODERATE)
     else if strength =? high then
       ret (crypto_pwhash_MEMLIMIT_SENSITIVE, crypto_pwhash_OPSLIMIT_SENSITIVE)
     else throw "Sodium:::Key::setpass() wrong strength");
  let '(strength_mem, strength_cpu) := limits in
  (if negb (length salt =? KEYSIZE_SALT)%nat
   then throw "Sodium::Key::setpass() wrong salt size" else ret tt) ;;
  readwrite k ;;
  do n <- size k;
  do rc <- crypto_pwhash (data k) n password salt
                         strength_cpu strength_mem crypto_pwhash_ALG_DEFAULT;
  (if negb (rc =? 0)
   then throw "Sodium::Key::setpass() crypto_pwhash()" else ret tt) ;;
  readonly k.

(** Key(std::size_t key_size, bool init=true) : keydata(key_size) *)
Definition Key `{Libsodium} (key_size : nat) (init : bool) : M t :=
  do p <- SodiumAlloc.allocate key_size;
  let k := Make p in
  (if init then initialize k ;; readonly k else ret tt) ;;
  ret k.

(** Key(const Key &other) = default: the vector's copy constructor takes
    storage for [other.size()] bytes from the allocator and copies the
    bytes of [other] into it. *)
Definition copy (other : t) : M t :=
  do n <- size other;
  do p <- SodiumAlloc.allocate n;
  do bs <- load (data other) n;
  store p bs ;;
  ret (Make p).

(** [Key b {std::move(a)}]: the class declares its copy constructor and
    its copy assignment and nothing else, so no move constructor is
    declared for it and the rvalue binds to [const Key &]. *)
Definition move (other : t) : M t := copy other.

End Key.

(** ** What a caller can observe of a key *)

Definition bytes_of (w : world) (k : Key.t) : option (list byte) :=
  cells <$> heap w !! Key.keydata k.

Definition access_of (w : world) (k : Key.t) : option protection :=
  prot <$> heap w !! Key.keydata k.

Definition size_of (w : world) (k : Key.t) : option nat :=
  length <$> bytes_of w k.

(** The cost parameters the [switch] of setpass() selects, as
    (memlimit, opslimit); [None] is its [default:] label. *)
Definition strength_limits `{Libsodium} (strength : Key.strength_t) : option (Z * Z) :=
  if strength =? Key.low then
    Some (crypto_pwhash_MEMLIMIT_INTERACTIVE, crypto_pwhash_OPSLIMIT_INTERACTIVE)
  else if strength =? Key.medium then
    Some (crypto_pwhash_MEMLIMIT_MODERATE, crypto_pwhash_OPSLIMIT_MODERATE)
  else if strength =? Key.high then
    Some (crypto_pwhash_MEMLIMIT_SENSITIVE, crypto_pwhash_OPSLIMIT_SENSITIVE)
  else None.

(** The three messages setpass() throws. *)
Definition wrong_strength : string := "Sodium:::Key::setpass() wrong strength".
Definition wrong_salt_size : string := "Sodium::Key::setpass() wrong salt size".

(** One of Sodium::Key::strength_t::{low,medium,high}. *)
Definition recognized (strength : Key.strength_t) : Prop :=
  strength = Key.low \/ strength = Key.medium \/ strength = Key.high.


(** ** Client code

    A client is a sequence of statements over keys: member calls on a key
    it holds, constructions and copies.  It catches what a call throws and
    goes on; a trap ends it. *)

Inductive method :=
| initialize
| setpass (password : string) (salt : list byte) (strength : Key.strength_t)
| destroy
| noaccess
| readonly
| readwrite.

Inductive statement :=
| Call (k : Key.t) (m : method)             (* k.m(...); *)
| Construct (key_size : nat) (init : bool)  (* Key fresh (key_size, init); *)
| Copy (other : Key.t).                     (* Key fresh {other}; *)

Definition call `{Libsodium} (m : method) (k : Key.t) : M unit :=
  match m with
  | initialize => Key.initialize k
  | setpass password salt strength => Key.setpass password salt strength k
  | destroy => Key.destroy k
  | noaccess => Key.noaccess k
  | readonly => Key.readonly k
  | readwrite => Key.readwrite k
  end.

Definition exec `{Libsodium} (s : statement) : M unit :=
  match s with
  | Call k m => call m k
  | Construct key_size init => Key.Key key_size init ;; ret tt
  | Copy other => Key.copy other ;; ret tt
  end.

Fixpoint run `{Libsodium} (ss : list statement) (w : world) : option world :=
  match ss with
  | [] => Some w
  | s :: ss => match survives (exec s w) with
               | Some w' => run ss w'
               | None => None
               end
  end.



(** ** Footprints

    Two ways of saying what a piece of code leaves alone: it keeps the
    length of every live allocation, or it keeps every allocation but the
    one at [p] as it is. *)

Definition same_sizes (w w' : world) : Prop :=
  forall p r, heap w !! p = Some r ->
    exists r', heap w' !! p = Some r' /\ length (cells r') = length (cells r).

Definition keeps_sizes {A} (m : M A) : Prop :=
  forall w w', survives (m w) = Some w' -> same_sizes w w'.

Definition modifies_only (p : addr) {A} (m : M A) : Prop :=
  forall w w', survives (m w) = Some w' ->
    forall q, q <> p -> heap w' !! q = heap w !! q.

(** ** A stand-in for libsodium

    Used to run the model on examples: the constants of libsodium 1.0.16,
    a derivation that refuses outputs shorter than crypto_pwhash_BYTES_MIN
    and otherwise adds up its inputs and its limits into the output, and
    a counter as random source. *)

Definition byte_of_nat (n : nat) : byte :=
  default x00 (Byte.of_nat (n mod 256)).

Fixpoint string_sum (s : string) : nat :=
  match s with
  | EmptyString => 0
  | String a s => Ascii.nat_of_ascii a + string_sum s
  end.

Definition bytes_sum (bs : list byte) : nat :=
  foldr (fun b acc => Byte.to_nat b + acc)%nat 0%nat bs.

Definition stand_in_pwhash (outlen : nat) (passwd : string) (salt : list byte)
    (opslimit memlimit alg : Z) : Z * list byte :=
  if (outlen <? 16)%nat then (-1, [])
  else (0, map (fun i => byte_of_nat (i + string_sum passwd + bytes_sum salt
                                         + Z.to_nat opslimit + 1))
               (seq 0 outlen)).

Definition stand_in : Libsodium := {|
  crypto_pwhash_SALTBYTES := 16;
  crypto_pwhash_MEMLIMIT_INTERACTIVE := 67108864;
  crypto_pwhash_OPSLIMIT_INTERACTIVE := 2;
  crypto_pwhash_MEMLIMIT_MODERATE := 268435456;
  crypto_pwhash_OPSLIMIT_MODERATE := 3;
  crypto_pwhash_MEMLIMIT_SENSITIVE := 1073741824;
  crypto_pwhash_OPSLIMIT_SENSITIVE := 4;
  crypto_pwhash_ALG_DEFAULT := 2;
  pwhash := stand_in_pwhash;
  entropy := fun i => byte_of_nat (i + 1);
|}.

(** Two keys of sixteen bytes for the examples: one locked away with key
    material in it, one fresh from Key(16, false); and a salt. *)
Definition key1 : Key.t := Key.Make 1%positive.
Definition key2 : Key.t := Key.Make 2%positive.
Definition region1 : region := Region (replicate 16 x2a) NoAccess.
Definition region2 : region := Region (replicate 16 x00) ReadWrite.
Definition two_keys : world :=
  World {[ 1%positive := region1; 2%positive := region2 ]} 0.
Definition salt16 : list byte := replicate 16 x5a.

Definition busy_client : list statement :=
  [ Call key1 readwrite; Call key1 initialize;
    Call key1 (setpass "CPE1704TKS" salt16 Key.medium);
    Call key2 (setpass "12345" [x01] Key.low);
    Call key1 destroy; Call key1 readonly; Construct 32 true;
    Copy key1; Call key2 initialize; Call key1 noaccess ].

(** ** Scenarios

    The test cases of tests/test_key.cpp that exercise the members of this
    header, and the two end-to-end scenarios of the spec, as programs. *)

(** sodium_test_key_noinit *)
Definition scenario_noinit `{Libsodium} : M (list byte * list byte) :=
  do key <- Key.Key 16 false;
  do n <- Key.size key;
  do before <- load (Key.data key) n;
  Key.initialize key ;;
  do after <- load (Key.data key) n;
  ret (before, after).

(** Key A (32 bytes, randomized), copied to B, B destroyed. *)
Definition scenario_copy_destroy `{Libsodium} : M (Key.t * Key.t) :=
  do a <- Key.Key 32 true;
  do b <- Key.copy a;
  Key.destroy b ;;
  ret (a, b).

(** Key K (32 bytes, not randomized), derived from "pw1", then from "pw2". *)
Definition scenario_rederive `{Libsodium} : M (list byte * list byte) :=
  do k <- Key.Key 32 false;
  Key.setpass "pw1" salt16 Key.medium k ;;
  do first <- load (Key.data k) 32;
  Key.setpass "pw2" salt16 Key.medium k ;;
  do second <- load (Key.data k) 32;
  ret (first, second).

(** A randomized key is read-only: initialize() on it without
    readwrite() first ends the program, as the header says. *)
Definition scenario_rescramble `{Libsodium} (unlock : bool) : M unit :=
  do key <- Key.Key 32 true;
  (if unlock then Key.readwrite key else ret tt) ;;
  Key.initialize key.

(** ** Counting key contents *)




(** ** More client code *)


(** The statements that are member calls on [k]. *)
Definition calls_on (k : Key.t) (s : statement) : bool :=
  match s with
  | Call k' _ => Pos.eqb (Key.keydata k') (Key.keydata k)
  | _ => false
  end.


(** * class Sodium::Nonce<N> (sodiumnonce.h) *)

(** ** libsodium, as far as sodiumnonce.h uses it

    The helpers for numbers kept in bytes, as unknown functions of the
    bytes they are handed: what sodium_increment(n, nlen) and
    sodium_add(a, b, len) leave in the [len] bytes of their first
    argument, what sodium_compare(b1, b2, len) returns, and the
    hexadecimal digits sodium_bin2hex(hex, hex_maxlen, bin, bin_len)
    produces, [None] when it returns NULL. *)

Class SodiumNumbers := {
  sodium_increment : list byte -> list byte;
  sodium_add : list byte -> list byte -> list byte;
  sodium_compare : list byte -> list byte -> Z;
  sodium_bin2hex : nat -> list byte -> option (list Ascii.ascii);
}.

(** A library routine writes [new] through a pointer into a buffer that
    holds [old]: the buffer keeps its length. *)
Definition overwrite {A} (old new : list A) : list A :=
  take (length old) (new ++ drop (length new) old).

Module Nonce.

(** [data_t noncedata]; the bytes are in ordinary memory, the nonce is a
    value. *)
Record t (N : nat) := Make { noncedata : list byte }.
Arguments Make {N} noncedata.
Arguments noncedata {N} _.

(** Nonce<N>(bool init=true) : noncedata(N) *)
Definition Nonce `{Libsodium} (N : nat) (init : bool) : M (t N) :=
  fun w =>
    let noncedata := replicate N x00 in
    if init
    then Ok (Make (overwrite noncedata
                     (map entropy (seq (drawn w) (length noncedata)))))
            (World (heap w) (drawn w + length noncedata)%nat)
    else Ok (Make noncedata) w.

Definition data {N} (n : t N) : list byte := noncedata n.

(** constexpr size(): N, not noncedata.size() *)
Definition size {N} (n : t N) : nat := N.

Definition increment `{SodiumNumbers} {N} (n : t N) : t N :=
  Make (overwrite (noncedata n) (sodium_increment (noncedata n))).

Definition is_zero {N} (n : t N) : bool := sodium_is_zero (noncedata n).

(** operator+= *)
Definition add_assign `{SodiumNumbers} {N} (a b : t N) : t N :=
  Make (overwrite (noncedata a)
          (sodium_add (noncedata a)
                      (take (length (noncedata a)) (noncedata b)))).


Definition compare `{SodiumNumbers} {N} (a b : t N) : Z :=
  sodium_compare (take (size a) (data a)) (take (size a) (data b)).

Definition eq `{SodiumNumbers} {N} (a b : t N) : bool := compare a b =? 0.
Definition ne `{SodiumNumbers} {N} (a b : t N) : bool := negb (compare a b =? 0).
Definition lt `{SodiumNumbers} {N} (a b : t N) : bool := compare a b <? 0.
Definition gt `{SodiumNumbers} {N} (a b : t N) : bool := compare a b >? 0.
Definition le `{SodiumNumbers} {N} (a b : t N) : bool := compare a b <=? 0.
Definition ge `{SodiumNumbers} {N} (a b : t N) : bool := compare a b >=? 0.

End Nonce.

(** The number a nonce stands for: its bytes in little endian order. *)
Fixpoint le_value (bs : list byte) : Z :=
  match bs with
  | [] => 0
  | b :: bs => Z.of_nat (Byte.to_nat b) + 256 * le_value bs
  end.

(** The [n] bytes of a number, in little endian order. *)
Fixpoint le_bytes (n : nat) (v : Z) : list byte :=
  match n with
  | O => []
  | S n => byte_of_nat (Z.to_nat (v mod 256)) :: le_bytes n (v / 256)
  end.

(** What libsodium documents of its three number helpers: the bytes are
    a number in little endian order, increment and add are modulo
    2^(8 len), and compare returns -1, 0 or 1. *)
Definition little_endian `{SodiumNumbers} : Prop :=
  (forall bs,
     length (sodium_increment bs) = length bs /\
     le_value (sodium_increment bs)
       = (le_value bs + 1) mod 256 ^ Z.of_nat (length bs)) /\
  (forall a b, length a = length b ->
     length (sodium_add a b) = length a /\
     le_value (sodium_add a b)
       = (le_value a + le_value b) mod 256 ^ Z.of_nat (length a)) /\
  (forall a b, length a = length b ->
     sodium_compare a b = match le_value a ?= le_value b with
                          | Lt => -1 | Eq => 0 | Gt => 1
                          end).

(** A stand-in for the number helpers, by way of the numbers. *)
Definition stand_in_numbers : SodiumNumbers := {|
  sodium_increment := fun bs => le_bytes (length bs) (le_value bs + 1);
  sodium_add := fun a b => le_bytes (length a) (le_value a + le_value b);
  sodium_compare := fun a b => match le_value a ?= le_value b with
                               | Lt => -1 | Eq => 0 | Gt => 1
                               end;
  sodium_bin2hex := fun hex_maxlen bin =>
    if (length bin * 2 <? hex_maxlen)%nat
    then Some (flat_map (fun b =>
                 let v := Byte.to_nat b in
                 let digit d := Ascii.ascii_of_nat
                                  (if d <? 10 then 48 + d else 87 + d)%nat in
                 [digit (v / 16)%nat; digit (v mod 16)%nat]) bin)
    else None;
|}.

(** A client that leaves [key2] alone but for copying it. *)
Definition other_client : list statement :=
  [ Call key1 readwrite; Call key1 initialize;
    Call key1 (setpass "12345" salt16 Key.low); Construct 8 true;
    Copy key2; Call key1 destroy; Call key1 noaccess ].

(** The two members that change the bytes of a nonce after its
    construction. *)
Inductive nonce_op (N : nat) :=
  | Increment
  | AddAssign (b : Nonce.t N).
Arguments Increment {N}.
Arguments AddAssign {N} b.

Definition nonce_step `{SodiumNumbers} {N} (n : Nonce.t N) (op : nonce_op N)
  : Nonce.t N :=
  match op with
  | Increment => Nonce.increment n
  | AddAssign b => Nonce.add_assign n b
  end.

(** * Properties *)

(** ** The raw accesses *)

Section Memory.

Implicit Types (w : world) (p : addr) (r : region) (bs : list byte).

Lemma region_eta r : Region (cells r) (prot r) = r.
Proof. by destruct r. Qed.

Lemma set_region_id w p r : heap w !! p = Some r -> set_region w p r = w.
Proof.
  intros Hp. destruct w as [h d]. unfold set_region. simpl in *.
  by rewrite insert_id.
Qed.

Lemma set_region_twice w p r r' :
  set_region (set_region w p r) p r' = set_region w p r'.
Proof. unfold set_region. simpl. by rewrite insert_insert_eq. Qed.

Lemma heap_set_region w p r : heap (set_region w p r) !! p = Some r.
Proof. unfold set_region. simpl. by rewrite lookup_insert_eq. Qed.

Lemma heap_set_region_ne w p q r :
  p <> q -> heap (set_region w p r) !! q = heap w !! q.
Proof. intros. unfold set_region. simpl. by rewrite lookup_insert_ne. Qed.

(** A store that fits and is allowed overwrites a prefix of the
    allocation and nothing else. *)
Lemma store_ok w p r bs :
  heap w !! p = Some r ->
  (length bs <= length (cells r))%nat ->
  writable (prot r) = true \/ bs = [] ->
  store p bs w =
    Ok tt (set_region w p (Region (bs ++ drop (length bs) (cells r)) (prot r))).
Proof.
  intros Hp Hlen Hw. unfold store. rewrite Hp.
  destruct (length bs =? 0)%nat eqn:E.
  - apply Nat.eqb_eq in E. apply nil_length_inv in E. subst bs. simpl.
    rewrite drop_0, region_eta. by rewrite set_region_id.
  - destruct Hw as [-> | ->]; [|done].
    apply Nat.leb_le in Hlen. by rewrite Hlen.
Qed.

(** A store of exactly as many bytes as the allocation holds. *)
Lemma store_all w p r bs :
  heap w !! p = Some r ->
  length bs = length (cells r) ->
  writable (prot r) = true ->
  store p bs w = Ok tt (set_region w p (Region bs (prot r))).
Proof.
  intros Hp Hlen Hw. rewrite (store_ok w p r bs Hp); [|lia|by left].
  by rewrite Hlen, drop_all, app_nil_r.
Qed.

Lemma mprotect_ok a w p r :
  heap w !! p = Some r ->
  SodiumAlloc.mprotect a p w = Ok tt (set_region w p (Region (cells r) a)).
Proof. intros Hp. unfold SodiumAlloc.mprotect. by rewrite Hp. Qed.

Lemma size_ok w k r :
  heap w !! Key.keydata k = Some r -> Key.size k w = Ok (length (cells r)) w.
Proof. intros Hp. unfold Key.size. by rewrite Hp. Qed.


End Memory.

(** ** destroy() *)

Section Destroy.



End Destroy.

(** ** setpass() *)

Section Setpass.

Context `{Libsodium}.


Lemma strength_limits_recognized strength :
  recognized strength <-> is_Some (strength_limits strength).
Proof.
  unfold recognized, strength_limits, Key.low, Key.medium, Key.high.
  destruct (Z.eqb_spec strength 0); [split; eauto|].
  destruct (Z.eqb_spec strength 1); [split; eauto|].
  destruct (Z.eqb_spec strength 2); [split; eauto|].
  split; [intros [?|[?|?]]; lia|intros [? ?]; done].
Qed.

(** Arguments that do not pass the checks: setpass() throws out of the
    state it was called in. *)
Lemma setpass_rejected password salt strength k w :
  Key.setpass password salt strength k w =
    match strength_limits strength with
    | None => Throw wrong_strength w
    | Some _ =>
        if negb (length salt =? Key.KEYSIZE_SALT)%nat
        then Throw wrong_salt_size w
        else Key.setpass password salt strength k w
    end.
Proof.
  unfold Key.setpass, strength_limits.
  unfold bind at 1.
  destruct (strength =? Key.low);
    [|destruct (strength =? Key.medium);
      [|destruct (strength =? Key.high); [|done]]];
    unfold ret at 1; cbv iota beta; unfold bind at 1;
    by destruct (negb (length salt =? Key.KEYSIZE_SALT)%nat).
Qed.



(** C4: when the strength is not recognized or the salt has the wrong
    size, setpass() throws before it changes the protection of the key
    or writes to it: the state after the failed call is the state before
    it, so the key has the bytes and the access state it had. *)
Theorem setpass_rejects_before_touching password salt strength k w :
  ~ recognized strength \/ length salt <> Key.KEYSIZE_SALT ->
  exists what w',
    Key.setpass password salt strength k w = Throw what w' /\
    w' = w /\
    bytes_of w' k = bytes_of w k /\
    access_of w' k = access_of w k.
Proof.
  intros Hbad. rewrite setpass_rejected.
  pose proof (strength_limits_recognized strength) as Hrec.
  destruct (strength_limits strength) as [lim|].
  - destruct Hbad as [Hbad|Hbad]; [destruct Hbad; apply Hrec; eauto|].
    apply Nat.eqb_neq in Hbad. rewrite Hbad. cbn [negb]. by eauto 10.
  - by eauto 10.
Qed.





End Setpass.

(** ** Footprints of the primitives and of the members *)

Create HintDb footprint.

Section Footprints.

Context `{Libsodium}.

Lemma survives_bind {A B} (m : M A) (f : A -> M B) w w' :
  survives (bind m f w) = Some w' ->
  survives (m w) = Some w' \/
  exists a w1, m w = Ok a w1 /\ survives (f a w1) = Some w'.
Proof. unfold bind. destruct (m w) as [a w1| |]; cbn; eauto. Qed.

Lemma same_sizes_refl w : same_sizes w w.
Proof. intros p r Hp. eauto. Qed.

Lemma same_sizes_trans w1 w2 w3 :
  same_sizes w1 w2 -> same_sizes w2 w3 -> same_sizes w1 w3.
Proof.
  intros H12 H23 p r Hp.
  destruct (H12 p r Hp) as (r2 & Hp2 & Hl2).
  destruct (H23 p r2 Hp2) as (r3 & Hp3 & Hl3).
  exists r3. split; [done|congruence].
Qed.

Lemma same_sizes_set_region w p r r' :
  heap w !! p = Some r -> length (cells r') = length (cells r) ->
  same_sizes w (set_region w p r').
Proof.
  intros Hp Hl q rq Hq. destruct (decide (q = p)) as [->|Hne].
  - rewrite heap_set_region. exists r'. split; [done|congruence].
  - rewrite heap_set_region_ne by done. eauto.
Qed.

Lemma same_sizes_fresh w p r' :
  heap w !! p = None -> same_sizes w (set_region w p r').
Proof.
  intros Hp q rq Hq. rewrite heap_set_region_ne by congruence. eauto.
Qed.

(** *** Sizes *)

Lemma keeps_sizes_ret {A} (a : A) : keeps_sizes (ret a).
Proof. intros w w' [= <-]. apply same_sizes_refl. Qed.

Lemma keeps_sizes_throw {A} what : keeps_sizes (@throw A what).
Proof. intros w w' [= <-]. apply same_sizes_refl. Qed.

Lemma keeps_sizes_bind {A B} (m : M A) (f : A -> M B) :
  keeps_sizes m -> (forall a, keeps_sizes (f a)) -> keeps_sizes (bind m f).
Proof.
  intros Hm Hf w w' Hs.
  destruct (survives_bind _ _ _ _ Hs) as [Hs'|(a & w1 & Hm1 & Hs')].
  - by apply Hm.
  - eapply same_sizes_trans; [apply Hm; by rewrite Hm1|by eapply Hf].
Qed.

Lemma keeps_sizes_if {A} (b : bool) (m1 m2 : M A) :
  keeps_sizes m1 -> keeps_sizes m2 -> keeps_sizes (if b then m1 else m2).
Proof. by destruct b. Qed.

Lemma keeps_sizes_store p bs : keeps_sizes (store p bs).
Proof.
  intros w w'. unfold store.
  destruct (heap w !! p) as [r|] eqn:Hp; [|done].
  destruct (length bs =? 0)%nat; [intros [= <-]; apply same_sizes_refl|].
  destruct (writable (prot r)); [|done].
  destruct (Nat.leb_spec (length bs) (length (cells r))); [|done].
  intros [= <-]. apply (same_sizes_set_region _ _ r); [done|]. cbn.
  rewrite length_app, length_drop. lia.
Qed.

Lemma keeps_sizes_load p n : keeps_sizes (load p n).
Proof.
  intros w w'. unfold load.
  destruct (heap w !! p) as [r|]; [|done].
  destruct (n =? 0)%nat; [intros [= <-]; apply same_sizes_refl|].
  destruct (readable (prot r) && (n <=? length (cells r))%nat); [|done].
  intros [= <-]. apply same_sizes_refl.
Qed.

Lemma keeps_sizes_mprotect a p : keeps_sizes (SodiumAlloc.mprotect a p).
Proof.
  intros w w'. unfold SodiumAlloc.mprotect.
  destruct (heap w !! p) as [r|] eqn:Hp; [|done].
  intros [= <-]. by apply (same_sizes_set_region _ _ r).
Qed.

Lemma allocate_fresh w : heap w !! fresh (dom (heap w)) = None.
Proof. apply not_elem_of_dom. apply is_fresh. Qed.

Lemma keeps_sizes_allocate n : keeps_sizes (SodiumAlloc.allocate n).
Proof.
  intros w w' [= <-]. apply same_sizes_fresh. by apply allocate_fresh.
Qed.

Lemma keeps_sizes_size k : keeps_sizes (Key.size k).
Proof.
  intros w w'. unfold Key.size.
  destruct (heap w !! Key.keydata k); [|done].
  intros [= <-]. apply same_sizes_refl.
Qed.

Lemma keeps_sizes_randombytes_buf p n : keeps_sizes (randombytes_buf p n).
Proof.
  intros w w' Hs. unfold randombytes_buf in Hs.
  apply keeps_sizes_store in Hs. intros q r Hq. by apply Hs.
Qed.

Lemma keeps_sizes_crypto_pwhash out outlen passwd salt ops mem alg :
  keeps_sizes (crypto_pwhash out outlen passwd salt ops mem alg).
Proof.
  unfold crypto_pwhash. destruct (pwhash _ _ _ _ _ _) as [rc bs].
  apply keeps_sizes_bind; [apply keeps_sizes_store|].
  intros _. apply keeps_sizes_ret.
Qed.

Hint Resolve keeps_sizes_ret keeps_sizes_throw keeps_sizes_store
  keeps_sizes_load keeps_sizes_mprotect keeps_sizes_allocate
  keeps_sizes_size keeps_sizes_randombytes_buf keeps_sizes_crypto_pwhash
  : footprint.

Local Ltac footprint_sizes :=
  repeat first
    [ progress eauto with footprint
    | apply keeps_sizes_bind; [|intros ?]
    | apply keeps_sizes_if
    | match goal with |- keeps_sizes (let '(_, _) := ?x in _) => destruct x end ].

Lemma keeps_sizes_call m k : keeps_sizes (call m k).
Proof.
  destruct m; cbn [call];
    unfold Key.initialize, Key.setpass, Key.destroy, Key.noaccess,
      Key.readonly, Key.readwrite, SodiumAlloc.noaccess,
      SodiumAlloc.readonly, SodiumAlloc.readwrite, sodium_memzero;
    footprint_sizes.
Qed.

Lemma keeps_sizes_exec s : keeps_sizes (exec s).
Proof.
  destruct s as [k m|key_size init|other]; cbn [exec].
  - apply keeps_sizes_call.
  - unfold Key.Key, Key.initialize, Key.readonly, SodiumAlloc.readonly.
    footprint_sizes.
  - unfold Key.copy. footprint_sizes.
Qed.

Lemma run_same_sizes ss : forall w w', run ss w = Some w' -> same_sizes w w'.
Proof.
  induction ss as [|s ss IH]; intros w w'; cbn [run].
  - intros [= <-]. apply same_sizes_refl.
  - destruct (survives (exec s w)) as [w1|] eqn:Hs; [|done].
    intros Hrun. eapply same_sizes_trans; [by eapply keeps_sizes_exec|by apply IH].
Qed.

(** *** Allocations left alone *)

Lemma modifies_only_ret {A} p (a : A) : modifies_only p (ret a).
Proof. by intros w w' [= <-]. Qed.

Lemma modifies_only_throw {A} p what : modifies_only p (@throw A what).
Proof. by intros w w' [= <-]. Qed.

Lemma modifies_only_bind {A B} p (m : M A) (f : A -> M B) :
  modifies_only p m -> (forall a, modifies_only p (f a)) ->
  modifies_only p (bind m f).
Proof.
  intros Hm Hf w w' Hs q Hq.
  destruct (survives_bind _ _ _ _ Hs) as [Hs'|(a & w1 & Hm1 & Hs')].
  - by apply Hm.
  - rewrite (Hf a w1 w' Hs' q Hq). apply Hm; [by rewrite Hm1|done].
Qed.

Lemma modifies_only_if {A} p (b : bool) (m1 m2 : M A) :
  modifies_only p m1 -> modifies_only p m2 ->
  modifies_only p (if b then m1 else m2).
Proof. by destruct b. Qed.

Lemma modifies_only_store p bs : modifies_only p (store p bs).
Proof.
  intros w w'. unfold store.
  destruct (heap w !! p) as [r|]; [|done].
  destruct (length bs =? 0)%nat; [by intros [= <-]|].
  destruct (writable (prot r) && (length bs <=? length (cells r))%nat); [|done].
  intros [= <-] q Hq. by rewrite heap_set_region_ne.
Qed.

Lemma modifies_only_load p q n : modifies_only p (load q n).
Proof.
  intros w w'. unfold load.
  destruct (heap w !! q) as [r|]; [|done].
  destruct (n =? 0)%nat; [by intros [= <-]|].
  destruct (readable (prot r) && (n <=? length (cells r))%nat); [|done].
  by intros [= <-].
Qed.

Lemma modifies_only_mprotect a p : modifies_only p (SodiumAlloc.mprotect a p).
Proof.
  intros w w'. unfold SodiumAlloc.mprotect.
  destruct (heap w !! p) as [r|]; [|done].
  intros [= <-] q Hq. by rewrite heap_set_region_ne.
Qed.

Lemma modifies_only_size p k : modifies_only p (Key.size k).
Proof.
  intros w w'. unfold Key.size.
  destruct (heap w !! Key.keydata k); [|done]. by intros [= <-].
Qed.

Lemma modifies_only_randombytes_buf p n : modifies_only p (randombytes_buf p n).
Proof.
  intros w w' Hs. unfold randombytes_buf in Hs.
  by apply modifies_only_store in Hs.
Qed.

Lemma modifies_only_crypto_pwhash out outlen passwd salt ops mem alg :
  modifies_only out (crypto_pwhash out outlen passwd salt ops mem alg).
Proof.
  unfold crypto_pwhash. destruct (pwhash _ _ _ _ _ _) as [rc bs].
  apply modifies_only_bind; [apply modifies_only_store|].
  intros _. apply modifies_only_ret.
Qed.

Hint Resolve modifies_only_ret modifies_only_throw modifies_only_store
  modifies_only_load modifies_only_mprotect modifies_only_size
  modifies_only_randombytes_buf modifies_only_crypto_pwhash : footprint.

Local Ltac footprint_frame :=
  repeat first
    [ progress eauto with footprint
    | apply modifies_only_bind; [|intros ?]
    | apply modifies_only_if
    | match goal with
      | |- modifies_only _ (let '(_, _) := ?x in _) => destruct x
      end ].

(** A member call on a key reaches the allocation of that key only. *)
Lemma modifies_only_call m k : modifies_only (Key.keydata k) (call m k).
Proof.
  destruct m; cbn [call];
    unfold Key.initialize, Key.setpass, Key.destroy, Key.noaccess,
      Key.readonly, Key.readwrite, SodiumAlloc.noaccess,
      SodiumAlloc.readonly, SodiumAlloc.readwrite, sodium_memzero, Key.data;
    footprint_frame.
Qed.

(** Code that allocates and then works on what it allocated leaves
    every allocation that was already there as it was. *)
Lemma allocate_then_frame {A} n (f : addr -> M A) w w' :
  (forall p, modifies_only p (f p)) ->
  survives (bind (SodiumAlloc.allocate n) f w) = Some w' ->
  forall q, is_Some (heap w !! q) -> heap w' !! q = heap w !! q.
Proof.
  intros Hf Hs q [r Hq]. unfold bind, SodiumAlloc.allocate in Hs.
  assert (Hne : q <> fresh (dom (heap w))).
  { intros ->. by rewrite allocate_fresh in Hq. }
  rewrite (Hf _ _ _ Hs q Hne). by rewrite heap_set_region_ne.
Qed.

Lemma construct_frame key_size init w w' :
  survives (Key.Key key_size init w) = Some w' ->
  forall q, is_Some (heap w !! q) -> heap w' !! q = heap w !! q.
Proof.
  unfold Key.Key. apply allocate_then_frame. intros p.
  unfold Key.initialize, Key.readonly, SodiumAlloc.readonly, Key.data.
  cbn [Key.keydata]. footprint_frame.
Qed.

Lemma copy_frame other w w' :
  survives (Key.copy other w) = Some w' ->
  forall q, is_Some (heap w !! q) -> heap w' !! q = heap w !! q.
Proof.
  unfold Key.copy. intros Hs.
  destruct (survives_bind _ _ _ _ Hs) as [Hs'|(n & w1 & Hn & Hs')].
  - unfold Key.size in Hs'.
    destruct (heap w !! Key.keydata other); cbn in Hs'; by simplify_eq.
  - unfold Key.size in Hn.
    destruct (heap w !! Key.keydata other); [|done].
    injection Hn as <- <-. revert Hs'. apply allocate_then_frame.
    intros p. footprint_frame.
Qed.

Lemma survives_then_ret {A} (m : M A) w :
  survives (bind m (fun _ => ret tt) w) = survives (m w).
Proof. unfold bind, ret. by destruct (m w). Qed.

(** A statement on a live key other than [k] leaves [k] as it is. *)
Lemma exec_frame s w w' k :
  survives (exec s w) = Some w' ->
  is_Some (heap w !! Key.keydata k) ->
  match s with Call k' _ => Key.keydata k' <> Key.keydata k | _ => True end ->
  heap w' !! Key.keydata k = heap w !! Key.keydata k.
Proof.
  destruct s as [k' m|key_size init|other]; cbn [exec]; intros Hs Hk Hne.
  - by apply (modifies_only_call m k' w w' Hs).
  - rewrite survives_then_ret in Hs. by apply (construct_frame _ _ _ _ Hs).
  - rewrite survives_then_ret in Hs. by apply (copy_frame _ _ _ Hs).
Qed.

(** *** Construction *)



(** *** A key that is not filled keeps its zeros *)







(** C7: the length of a key never changes after construction.  Whatever
    a client does next -- initialize(), setpass(), destroy(), noaccess(),
    readonly(), readwrite() on this key or on another, in any order and
    whether a call returns or throws, constructing and copying keys --
    a key that had [n] bytes has [n] bytes afterwards. *)
Theorem size_never_changes (ss : list statement) (w w' : world)
    (k : Key.t) (n : nat) :
  size_of w k = Some n ->
  run ss w = Some w' ->
  size_of w' k = Some n.
Proof.
  unfold size_of, bytes_of. intros Hn Hrun.
  destruct (heap w !! Key.keydata k) as [r|] eqn:Hp; [|done].
  destruct (run_same_sizes _ _ _ Hrun _ _ Hp) as (r' & -> & Hl).
  cbn in *. congruence.
Qed.

End Footprints.

(** ** Copying and moving *)

Section Copy.

Implicit Types (w : world) (r : region).

Lemma load_ok w p r :
  heap w !! p = Some r ->
  readable (prot r) = true ->
  load p (length (cells r)) w = Ok (cells r) w.
Proof.
  intros Hp Hr. unfold load. rewrite Hp, Hr, Nat.leb_refl. cbn.
  destruct (Nat.eqb_spec (length (cells r)) 0) as [Hz|_].
  - apply nil_length_inv in Hz. by rewrite Hz.
  - by rewrite firstn_all.
Qed.

(** The copy constructor on a live key that may be read. *)
Lemma copy_ok w other r :
  heap w !! Key.keydata other = Some r ->
  readable (prot r) = true ->
  Key.copy other w =
    Ok (Key.Make (fresh (dom (heap w))))
       (set_region w (fresh (dom (heap w))) (Region (cells r) ReadWrite)).
Proof.
  intros Hp Hr. unfold Key.copy, Key.data.
  unfold bind at 1. rewrite (size_ok _ _ _ Hp).
  unfold bind at 1. unfold SodiumAlloc.allocate at 1.
  set (p := fresh (dom (heap w))).
  set (w1 := set_region w p _).
  assert (Hne : p <> Key.keydata other).
  { intros Heq. subst p. pose proof (allocate_fresh w) as Hf.
    rewrite Heq in Hf. congruence. }
  assert (Hp1 : heap w1 !! Key.keydata other = Some r)
    by (unfold w1; by rewrite heap_set_region_ne).
  unfold bind at 1. rewrite (load_ok _ _ _ Hp1 Hr).
  unfold bind at 1.
  rewrite (store_all w1 p (Region (replicate (length (cells r)) x00) ReadWrite));
    [|by apply heap_set_region|by cbn; rewrite length_replicate|done].
  unfold ret, w1. by rewrite set_region_twice.
Qed.

(** The copy constructor on a key that may not be read: the vector
    reads the bytes of the source, and the read traps. *)
Lemma copy_noaccess w other r :
  heap w !! Key.keydata other = Some r ->
  readable (prot r) = false ->
  cells r <> [] ->
  Key.copy other w = Trap.
Proof.
  intros Hp Hr Hne. unfold Key.copy, Key.data.
  unfold bind at 1. rewrite (size_ok _ _ _ Hp).
  unfold bind at 1. unfold SodiumAlloc.allocate at 1.
  set (p := fresh (dom (heap w))).
  assert (Hnp : p <> Key.keydata other).
  { intros Heq. subst p. pose proof (allocate_fresh w) as Hf.
    rewrite Heq in Hf. congruence. }
  unfold bind at 1. unfold load. rewrite heap_set_region_ne by done.
  rewrite Hp, Hr.
  destruct (Nat.eqb_spec (length (cells r)) 0) as [Hz|_]; [|done].
  by apply nil_length_inv in Hz.
Qed.


(** C8, at a key of four bytes: what [Key key_move {std::move(key)}]
    does in this header.  The copy constructor runs.  The source keeps
    its four bytes where test_key.cpp expects size() == 0, the new key
    sits at another address where the test expects the address of the
    source, and after key.noaccess(), which the test calls first, the
    construction traps. *)
Theorem move_copies :
  let key := Key.Make 1%positive in
  let material := [x2a; x2b; x2c; x2d] in
  let w := World {[ 1%positive := Region material ReadOnly ]} 0 in
  let locked := World {[ 1%positive := Region material NoAccess ]} 0 in
  (exists key_move w',
     Key.move key w = Ok key_move w' /\
     size_of w' key = Some 4%nat /\
     bytes_of w' key = Some material /\
     bytes_of w' key_move = Some material /\
     Key.data key_move <> Key.data key) /\
  Key.noaccess key w = Ok tt locked /\
  Key.move key locked = Trap.
Proof.
  intros key material w locked.
  assert (Hp : heap w !! Key.keydata key = Some (Region material ReadOnly))
    by done.
  split; [|split].
  - eexists _, _. unfold Key.move. split; [by apply (copy_ok w key _ Hp)|].
    set (p := fresh (dom (heap w))).
    assert (Hne : p <> Key.keydata key).
    { intros Heq. pose proof (allocate_fresh w) as Hf. fold p in Hf.
      rewrite Heq in Hf. congruence. }
    unfold size_of, bytes_of, Key.data. cbn [Key.keydata] in *.
    rewrite heap_set_region, heap_set_region_ne by done.
    by rewrite Hp.
  - unfold Key.noaccess, SodiumAlloc.noaccess, Key.data.
    rewrite (mprotect_ok NoAccess w _ _ Hp).
    unfold set_region, locked. cbn. by rewrite insert_singleton_eq.
  - unfold Key.move.
    by apply (copy_noaccess locked key (Region material NoAccess)).
Qed.

End Copy.

(** ** Passwords that setpass() cannot tell apart *)

Section Counting.






End Counting.

(** ** The scenarios, run against the stand-in *)

Section Scenarios.

Local Existing Instance stand_in.

Example scenario_noinit_runs :
  exists before after w,
    scenario_noinit (World ∅ 0) = Ok (before, after) w /\
    sodium_is_zero before = true /\ length before = 16%nat /\
    sodium_is_zero after = false /\ length after = 16%nat.
Proof. eexists _, _, _. split; [vm_compute; reflexivity|]. by vm_compute. Qed.

Example scenario_copy_destroy_runs :
  exists a b w,
    scenario_copy_destroy (World ∅ 0) = Ok (a, b) w /\
    Key.data a <> Key.data b /\
    bytes_of w b = Some (replicate 32 x00) /\
    bytes_of w a = Some (map entropy (seq 0 32)) /\
    sodium_is_zero (map entropy (seq 0 32)) = false.
Proof.
  eexists _, _, _. split; [vm_compute; reflexivity|].
  repeat split; [discriminate|by vm_compute..].
Qed.

Example scenario_rederive_runs :
  exists first second w,
    scenario_rederive (World ∅ 0) = Ok (first, second) w /\
    first <> second /\ length first = 32%nat /\ length second = 32%nat.
Proof.
  eexists _, _, _. split; [vm_compute; reflexivity|].
  repeat split; [discriminate|by vm_compute..].
Qed.

Example scenario_rescramble_runs :
  returns (scenario_rescramble true (World ∅ 0)) = true /\
  scenario_rescramble false (World ∅ 0) = Trap.
Proof. by vm_compute. Qed.

End Scenarios.

(** ** The theorems at work on examples *)

Section Examples.

Local Existing Instance stand_in.







Lemma setpass_rejects_before_touching_witness :
  (~ recognized 7 \/ length salt16 <> Key.KEYSIZE_SALT) /\
  exists what w',
    Key.setpass "12345" salt16 7 key1 two_keys = Throw what w' /\
    w' = two_keys /\
    bytes_of w' key1 = bytes_of two_keys key1 /\
    access_of w' key1 = access_of two_keys key1.
Proof.
  assert (Hbad : ~ recognized 7 \/ length salt16 <> Key.KEYSIZE_SALT).
  { left. unfold recognized, Key.low, Key.medium, Key.high. lia. }
  split; [exact Hbad|].
  exact (setpass_rejects_before_touching "12345" salt16 7 key1 two_keys Hbad).
Defined.

Lemma size_never_changes_witness :
  size_of two_keys key1 = Some 16%nat /\
  match run busy_client two_keys with
  | Some w' => size_of w' key1 = Some 16%nat
  | None => False
  end.
Proof.
  split; [reflexivity|].
  destruct (run busy_client two_keys) as [w'|] eqn:Hrun.
  - exact (size_never_changes busy_client two_keys w' key1 16 eq_refl Hrun).
  - vm_compute in Hrun. discriminate Hrun.
Defined.


End Examples.

(** * Further properties of the members of Sodium::Key *)

Section Members.

Context `{Libsodium}.

Implicit Types (w : world) (k : Key.t) (r : region).

Lemma writable_ReadWrite r : writable (prot r) = true -> prot r = ReadWrite.
Proof. by destruct (prot r). Qed.

Lemma initialize_ok w k r :
  heap w !! Key.keydata k = Some r ->
  writable (prot r) = true ->
  Key.initialize k w =
    Ok tt (World (<[Key.keydata k :=
                      Region (map entropy (seq (drawn w) (length (cells r))))
                             ReadWrite]> (heap w))
                 (drawn w + length (cells r))).
Proof.
  intros Hp Hw. unfold Key.initialize, Key.data, bind.
  rewrite (size_ok _ _ _ Hp). unfold randombytes_buf.
  rewrite (store_all _ _ r); [|done|by rewrite length_map, length_seq|done].
  by rewrite (writable_ReadWrite r Hw).
Qed.

Lemma initialize_trap w k r :
  heap w !! Key.keydata k = Some r ->
  writable (prot r) = false ->
  cells r <> [] ->
  Key.initialize k w = Trap.
Proof.
  intros Hp Hw Hne. unfold Key.initialize, Key.data, bind.
  rewrite (size_ok _ _ _ Hp). unfold randombytes_buf, store. cbn [heap].
  rewrite Hp, Hw, length_map, length_seq.
  destruct (Nat.eqb_spec (length (cells r)) 0) as [Hz|_]; [|done].
  by apply nil_length_inv in Hz.
Qed.

(** X1: initialize() writes through the protection of the key and does
    not lift it.  On a key that is read-write it returns, the key holds
    the next size() bytes of the random source and stays read-write, and
    no other allocation changes.  On a key with bytes in it that is
    read-only or not accessible it ends the program, as the header warns:
    a key fresh from Key(key_size) is in that state. *)
Theorem initialize_fills_or_traps (w : world) (k : Key.t) (r : region) :
  heap w !! Key.keydata k = Some r ->
  cells r <> [] ->
  let n := length (cells r) in
  match prot r with
  | ReadWrite =>
      exists w',
        Key.initialize k w = Ok tt w' /\
        bytes_of w' k = Some (map entropy (seq (drawn w) n)) /\
        access_of w' k = Some ReadWrite /\
        drawn w' = (drawn w + n)%nat /\
        (forall q, q <> Key.keydata k -> heap w' !! q = heap w !! q)
  | ReadOnly | NoAccess => Key.initialize k w = Trap
  end.
Proof.
  intros Hp Hne n. destruct (prot r) eqn:Hprot.
  - apply (initialize_trap w k r); [done|by rewrite Hprot|done].
  - apply (initialize_trap w k r); [done|by rewrite Hprot|done].
  - eexists. split; [apply (initialize_ok w k r); [done|by rewrite Hprot]|].
    unfold bytes_of, access_of. cbn. rewrite lookup_insert_eq. cbn.
    repeat split. intros q Hq. by rewrite lookup_insert_ne.
Qed.




End Members.

(** ** Sequences of calls *)

Section Sequences.

Context `{Libsodium}.

Implicit Types (w : world) (k : Key.t) (r : region).


(** X6: keys do not reach each other.  Whatever a client does with other
    keys -- any member call on them, whether it returns or throws,
    constructing keys and copying any key, this one included -- a live
    key on which no member is called keeps its bytes and its access
    state. *)
Theorem other_keys_untouched (ss : list statement) (w w' : world) (k : Key.t) :
  is_Some (heap w !! Key.keydata k) ->
  existsb (calls_on k) ss = false ->
  run ss w = Some w' ->
  heap w' !! Key.keydata k = heap w !! Key.keydata k.
Proof.
  revert w. induction ss as [|s ss IH]; intros w Hk Hno; cbn [run].
  - by intros [= <-].
  - cbn in Hno. apply orb_false_iff in Hno as [Hs Hss].
    destruct (survives (exec s w)) as [w1|] eqn:Hw1; [|done].
    assert (Hstep : heap w1 !! Key.keydata k = heap w !! Key.keydata k).
    { apply (exec_frame s w w1 k Hw1 Hk).
      destruct s as [k' m| |]; [|done..].
      cbn in Hs. by apply Pos.eqb_neq in Hs. }
    intros Hrun. rewrite <- Hstep. apply IH; [by rewrite Hstep|done|done].
Qed.



End Sequences.

(** * Sodium::Nonce<N> *)

Section NonceBytes.

Lemma length_overwrite {A} (old new : list A) :
  length (overwrite old new) = length old.
Proof.
  unfold overwrite. rewrite length_take, length_app, length_drop. lia.
Qed.

Lemma overwrite_all {A} (old new : list A) :
  length new = length old -> overwrite old new = new.
Proof.
  intros Hl. unfold overwrite. rewrite Hl, drop_all, app_nil_r, <- Hl.
  by rewrite take_ge.
Qed.

Lemma overwrite_prefix {A} (old new : list A) :
  (length new <= length old)%nat ->
  overwrite old new = new ++ drop (length new) old.
Proof.
  intros Hl. unfold overwrite. apply take_ge.
  rewrite length_app, length_drop. lia.
Qed.


Lemma le_value_zeros n : le_value (replicate n x00) = 0.
Proof. induction n as [|n IH]; cbn [replicate le_value]; [done|]. rewrite IH. done. Qed.

Lemma le_value_bounds bs : 0 <= le_value bs < 256 ^ Z.of_nat (length bs).
Proof.
  induction bs as [|b bs IH]; cbn [le_value length]; [lia|].
  pose proof (Byte.to_nat_bounded b).
  rewrite Nat2Z.inj_succ, Z.pow_succ_r by lia. lia.
Qed.

End NonceBytes.

Section NonceMembers.

Context `{SodiumNumbers}.

(** X10: the six comparison operators of Nonce<N> are one call of
    compare() each and so fit together, whatever sodium_compare()
    returns: of a < b, a == b and a > b exactly one holds, != is the
    negation of ==, >= of <, and <= of >. *)
Theorem nonce_comparisons_agree (N : nat) (a b : Nonce.t N) :
  (Nonce.lt a b, Nonce.eq a b, Nonce.gt a b)
    ∈ [(true, false, false); (false, true, false); (false, false, true)] /\
  Nonce.ne a b = negb (Nonce.eq a b) /\
  Nonce.ge a b = negb (Nonce.lt a b) /\
  Nonce.le a b = negb (Nonce.gt a b) /\
  Nonce.le a b = Nonce.lt a b || Nonce.eq a b /\
  Nonce.ge a b = Nonce.gt a b || Nonce.eq a b.
Proof.
  unfold Nonce.lt, Nonce.eq, Nonce.gt, Nonce.ne, Nonce.ge, Nonce.le.
  generalize (Nonce.compare a b). intros c.
  rewrite Z.gtb_ltb, Z.geb_leb.
  destruct (Z.ltb_spec c 0), (Z.eqb_spec c 0), (Z.ltb_spec 0 c),
    (Z.leb_spec c 0), (Z.leb_spec 0 c); try lia;
    repeat split; try done; set_solver.
Qed.


End NonceMembers.

(** ** Nonces as numbers *)

Section NonceArithmetic.

Context `{SodiumNumbers}.

Lemma increment_value N (n : Nonce.t N) :
  little_endian ->
  length (Nonce.noncedata n) = N ->
  length (Nonce.noncedata (Nonce.increment n)) = N /\
  le_value (Nonce.noncedata (Nonce.increment n))
    = (le_value (Nonce.noncedata n) + 1) mod 256 ^ Z.of_nat N.
Proof.
  intros (Hinc & _ & _) Hn. destruct (Hinc (Nonce.noncedata n)) as [Hl Hv].
  unfold Nonce.increment. cbn [Nonce.noncedata].
  rewrite overwrite_all by done. by rewrite Hl, Hv, Hn.
Qed.

Lemma increments_value N (n : Nonce.t N) (k : nat) :
  little_endian ->
  length (Nonce.noncedata n) = N ->
  length (Nonce.noncedata (Nat.iter k Nonce.increment n)) = N /\
  le_value (Nonce.noncedata (Nat.iter k Nonce.increment n))
    = (le_value (Nonce.noncedata n) + Z.of_nat k) mod 256 ^ Z.of_nat N.
Proof.
  intros Hle Hn. induction k as [|k [IHl IHv]].
  - cbn [Nat.iter]. split; [done|].
    pose proof (le_value_bounds (Nonce.noncedata n)) as Hb.
    rewrite Hn in Hb. by rewrite Z.add_0_r, Z.mod_small.
  - rewrite Nat.iter_succ.
    destruct (increment_value N (Nat.iter k Nonce.increment n) Hle IHl)
      as [Hl Hv].
    split; [done|]. rewrite Hv, IHv, Z.add_mod_idemp_l by lia.
    f_equal. lia.
Qed.

Lemma add_assign_value N (a b : Nonce.t N) :
  little_endian ->
  length (Nonce.noncedata a) = N ->
  length (Nonce.noncedata b) = N ->
  length (Nonce.noncedata (Nonce.add_assign a b)) = N /\
  le_value (Nonce.noncedata (Nonce.add_assign a b))
    = (le_value (Nonce.noncedata a) + le_value (Nonce.noncedata b))
        mod 256 ^ Z.of_nat N.
Proof.
  intros (_ & Hadd & _) Ha Hb. unfold Nonce.add_assign. cbn [Nonce.noncedata].
  rewrite (take_ge (Nonce.noncedata b)) by lia.
  destruct (Hadd (Nonce.noncedata a) (Nonce.noncedata b)) as [Hl Hv];
    [congruence|].
  rewrite overwrite_all by done. by rewrite Hl, Hv, Ha.
Qed.

Lemma compare_value N (a b : Nonce.t N) :
  little_endian ->
  length (Nonce.noncedata a) = N ->
  length (Nonce.noncedata b) = N ->
  Nonce.compare a b
    = match le_value (Nonce.noncedata a) ?= le_value (Nonce.noncedata b) with
      | Lt => -1 | Eq => 0 | Gt => 1
      end.
Proof.
  intros (_ & _ & Hcmp) Ha Hb. unfold Nonce.compare, Nonce.size, Nonce.data.
  rewrite !take_ge by lia. apply Hcmp. congruence.
Qed.

(** X12: what SodiumTester::test3 checks, for every nonce and every
    number of steps.  With libsodium's helpers doing little endian
    arithmetic, a nonce to which a zero nonce incremented [k] times is
    added with += equals the nonce incremented [k] times, also when the
    number wraps around, so the last check of test3 never throws.  Its
    check [a_copy > a] does throw for some nonces: the nonce is greater
    than itself incremented [k] times exactly when the increments wrap
    around. *)
Theorem add_is_repeated_increment (N : nat) (a : Nonce.t N) (k : nat) :
  little_endian ->
  length (Nonce.noncedata a) = N ->
  let a_k := Nat.iter k Nonce.increment a in
  let b := Nat.iter k Nonce.increment (Nonce.Make (replicate N x00)) in
  Nonce.ne (Nonce.add_assign a b) a_k = false /\
  (Z.of_nat k < 256 ^ Z.of_nat N ->
   (Nonce.gt a a_k = true <->
    256 ^ Z.of_nat N <= le_value (Nonce.noncedata a) + Z.of_nat k)).
Proof.
  intros Hle Ha a_k b.
  set (M := 256 ^ Z.of_nat N). assert (HM : 0 < M) by (unfold M; lia).
  pose proof (le_value_bounds (Nonce.noncedata a)) as Hva. rewrite Ha in Hva.
  fold M in Hva. set (v := le_value (Nonce.noncedata a)) in *.
  destruct (increments_value N a k Hle Ha) as [Hlk Hvk]. fold a_k M v in Hlk, Hvk.
  destruct (increments_value N (Nonce.Make (replicate N x00)) k Hle)
    as [Hlb Hvb]; [by cbn; rewrite length_replicate|].
  fold b M in Hlb, Hvb. cbn [Nonce.noncedata] in Hvb.
  rewrite le_value_zeros, Z.add_0_l in Hvb.
  destruct (add_assign_value N a b Hle Ha Hlb) as [Hls Hvs].
  fold M v in Hvs. rewrite Hvb, Z.add_mod_idemp_r in Hvs by lia. split.
  - unfold Nonce.ne. rewrite (compare_value N _ _ Hle Hls Hlk), Hvs, Hvk.
    by rewrite Z.compare_refl.
  - intros Hk. unfold Nonce.gt. rewrite (compare_value N _ _ Hle Ha Hlk), Hvk.
    fold v. destruct (Z_lt_le_dec (v + Z.of_nat k) M) as [Hlt|Hge].
    + rewrite Z.mod_small by lia.
      destruct (Z.compare_spec v (v + Z.of_nat k)); cbn; split; try done; lia.
    + replace ((v + Z.of_nat k) mod M) with (v + Z.of_nat k - M).
      * destruct (Z.compare_spec v (v + Z.of_nat k - M)); cbn;
          split; try done; lia.
      * apply Z.mod_unique_pos with (q := 1); lia.
Qed.

End NonceArithmetic.

(** ** The stand-in for the number helpers is little endian *)

Section StandInNumbers.

Lemma to_nat_byte_of_nat (n : nat) :
  (n < 256)%nat -> Byte.to_nat (byte_of_nat n) = n.
Proof.
  intros Hn. unfold byte_of_nat. rewrite Nat.mod_small by done.
  pose proof (Byte.to_of_nat_option_map n) as Hm.
  destruct (Byte.of_nat n) as [b|] eqn:Hb; cbn in *.
  - by apply Byte.to_of_nat.
  - destruct (Nat.leb_spec n 255); [done|lia].
Qed.

Lemma length_le_bytes n v : length (le_bytes n v) = n.
Proof. revert v. induction n as [|n IH]; intros v; cbn; [done|by rewrite IH]. Qed.

Lemma le_value_le_bytes n v : le_value (le_bytes n v) = v mod 256 ^ Z.of_nat n.
Proof.
  revert v. induction n as [|n IH]; intros v; cbn [le_bytes le_value].
  - by rewrite Z.mod_1_r.
  - assert (Hv : 0 <= v mod 256 < 256) by (apply Z.mod_pos_bound; lia).
    rewrite to_nat_byte_of_nat, Z2Nat.id, IH by lia.
    rewrite Nat2Z.inj_succ, Z.pow_succ_r by lia.
    rewrite Z.rem_mul_r by lia. done.
Qed.

Lemma stand_in_numbers_little_endian : @little_endian stand_in_numbers.
Proof.
  unfold little_endian. cbn. repeat split.
  - apply length_le_bytes.
  - apply le_value_le_bytes.
  - apply length_le_bytes.
  - apply le_value_le_bytes.
Qed.

End StandInNumbers.

(** ** The size of a nonce, and zero *)

Section NonceInvariant.

Context `{Libsodium} `{SodiumNumbers}.

Lemma nonce_step_length N (n : Nonce.t N) (op : nonce_op N) :
  length (Nonce.noncedata (nonce_step n op)) = length (Nonce.noncedata n).
Proof. destruct op; cbn [nonce_step]; apply length_overwrite. Qed.

Lemma nonce_steps_length N (ops : list (nonce_op N)) (n : Nonce.t N) :
  length (Nonce.noncedata (foldl nonce_step n ops))
    = length (Nonce.noncedata n).
Proof.
  revert n. induction ops as [|op ops IH]; intros n; cbn [foldl]; [done|].
  by rewrite IH, nonce_step_length.
Qed.

Lemma is_zero_value (bs : list byte) :
  sodium_is_zero bs = true <-> le_value bs = 0.
Proof.
  unfold sodium_is_zero.
  induction bs as [|b bs IH]; cbn [forallb le_value]; [done|].
  pose proof (le_value_bounds bs) as Hb.
  rewrite andb_true_iff, IH. split.
  - intros [Hz ->]. apply Byte.byte_dec_bl in Hz. by subst b.
  - intros Hv. assert (Hn : Byte.to_nat b = 0%nat) by lia.
    split; [|lia]. pose proof (Byte.of_to_nat b) as Hof. rewrite Hn in Hof.
    cbn in Hof. by injection Hof as <-.
Qed.

(** X13: the invariant the header asks to be checked by hand, N ==
    noncedata.size().  The constructor never throws and returns N bytes,
    random ones or, with init false, zero ones for which is_zero() holds;
    and whatever increment() and operator+= calls follow, with whatever
    operands, the nonce has the N bytes that size() reports. *)
Theorem nonce_size_invariant (N : nat) (init : bool) (w : world)
    (ops : list (nonce_op N)) :
  exists n w',
    Nonce.Nonce N init w = Ok n w' /\
    length (Nonce.data (foldl nonce_step n ops))
      = Nonce.size (foldl nonce_step n ops) /\
    heap w' = heap w /\
    if init
    then Nonce.data n = map entropy (seq (drawn w) N) /\
         drawn w' = (drawn w + N)%nat
    else Nonce.is_zero n = true /\ w' = w.
Proof.
  unfold Nonce.Nonce, Nonce.data, Nonce.size. cbv zeta.
  rewrite length_replicate. destruct init; eexists _, _; (split; [done|]).
  - rewrite nonce_steps_length. cbn [Nonce.noncedata heap drawn].
    rewrite length_overwrite, length_replicate.
    repeat split. apply overwrite_all.
    by rewrite length_map, length_seq, length_replicate.
  - rewrite nonce_steps_length. cbn [Nonce.noncedata].
    rewrite length_replicate. repeat split.
    unfold Nonce.is_zero. cbn [Nonce.noncedata].
    apply is_zero_value, le_value_zeros.
Qed.

(** X14: a zero nonce that is incremented [k] times, as [b] is in
    SodiumTester::test3, is zero again exactly when [k] is a multiple of
    256^N: with little endian helpers increment() counts modulo 2^(8N)
    and is_zero() tells when the count is back at zero. *)
Theorem increments_reach_zero (N k : nat) :
  little_endian ->
  Nonce.is_zero (N := N)
    (Nat.iter k Nonce.increment (Nonce.Make (replicate N x00))) = true
  <-> Z.of_nat k mod 256 ^ Z.of_nat N = 0.
Proof.
  intros Hle.
  destruct (increments_value N (Nonce.Make (replicate N x00)) k Hle)
    as [_ Hv]; [by cbn; rewrite length_replicate|].
  cbn [Nonce.noncedata] in Hv. rewrite le_value_zeros, Z.add_0_l in Hv.
  unfold Nonce.is_zero. by rewrite is_zero_value, Hv.
Qed.

End NonceInvariant.

(** ** Copying a key that is locked away *)

Section CopyAccess.

(** X9: the copy constructor reads the key it copies.  From a key with
    bytes in it that has been made noaccess() it ends the program, as
    test_key.cpp warns; once the key is readonly() again the copy is made
    and holds the bytes the key had all along. *)
Theorem copy_needs_read_access (w : world) (k : Key.t) (r : region) :
  heap w !! Key.keydata k = Some r ->
  cells r <> [] ->
  exists w1 w2 k' w3,
    Key.noaccess k w = Ok tt w1 /\
    Key.copy k w1 = Trap /\
    Key.readonly k w1 = Ok tt w2 /\
    Key.copy k w2 = Ok k' w3 /\
    bytes_of w3 k' = Some (cells r) /\
    bytes_of w3 k = Some (cells r).
Proof.
  intros Hp Hne.
  set (w1 := set_region w (Key.keydata k) (Region (cells r) NoAccess)).
  set (w2 := set_region w1 (Key.keydata k) (Region (cells r) ReadOnly)).
  assert (Hp1 : heap w1 !! Key.keydata k = Some (Region (cells r) NoAccess))
    by apply heap_set_region.
  assert (Hp2 : heap w2 !! Key.keydata k = Some (Region (cells r) ReadOnly))
    by apply heap_set_region.
  exists w1, w2. eexists _, _.
  split; [by apply mprotect_ok|].
  split; [by apply (copy_noaccess w1 k _ Hp1)|].
  split; [by apply (mprotect_ok ReadOnly w1 _ _ Hp1)|].
  split; [by apply (copy_ok w2 k _ Hp2)|].
  set (p := fresh (dom (heap w2))).
  assert (Hnp : p <> Key.keydata k).
  { intros Heq. pose proof (allocate_fresh w2) as Hf. fold p in Hf.
    rewrite Heq in Hf. congruence. }
  unfold bytes_of. cbn [Key.keydata].
  by rewrite heap_set_region, heap_set_region_ne, Hp2.
Qed.

End CopyAccess.

(** ** The further properties at work on examples *)

Section MoreExamples.

Local Existing Instance stand_in.
Local Existing Instance stand_in_numbers.

Lemma region1_has_bytes : cells region1 <> [].
Proof. discriminate. Defined.

Lemma region2_has_bytes : cells region2 <> [].
Proof. discriminate. Defined.


Lemma initialize_fills_or_traps_witness :
  heap two_keys !! Key.keydata key2 = Some region2 /\
  cells region2 <> [] /\
  (exists w',
     Key.initialize key2 two_keys = Ok tt w' /\
     bytes_of w' key2 = Some (map entropy (seq 0 16)) /\
     access_of w' key2 = Some ReadWrite /\
     drawn w' = 16%nat /\
     (forall q, q <> Key.keydata key2 ->
                heap w' !! q = heap two_keys !! q)) /\
  Key.initialize key1 two_keys = Trap.
Proof.
  split; [reflexivity|]. split; [exact region2_has_bytes|]. split.
  - exact (initialize_fills_or_traps two_keys key2 region2 eq_refl
             region2_has_bytes).
  - exact (initialize_fills_or_traps two_keys key1 region1 eq_refl
             region1_has_bytes).
Defined.






Lemma key2_is_live : is_Some (heap two_keys !! Key.keydata key2).
Proof. exists region2. reflexivity. Defined.


Lemma other_keys_untouched_witness :
  existsb (calls_on key2) other_client = false /\
  match run other_client two_keys with
  | Some w' => heap w' !! Key.keydata key2 = heap two_keys !! Key.keydata key2
  | None => False
  end.
Proof.
  split; [reflexivity|].
  destruct (run other_client two_keys) as [w'|] eqn:Hrun.
  - exact (other_keys_untouched other_client two_keys w' key2 key2_is_live
             eq_refl Hrun).
  - vm_compute in Hrun. discriminate Hrun.
Defined.



Lemma copy_needs_read_access_witness :
  heap two_keys !! Key.keydata key2 = Some region2 /\
  cells region2 <> [] /\
  exists w1 w2 k' w3,
    Key.noaccess key2 two_keys = Ok tt w1 /\
    Key.copy key2 w1 = Trap /\
    Key.readonly key2 w1 = Ok tt w2 /\
    Key.copy key2 w2 = Ok k' w3 /\
    bytes_of w3 k' = Some (cells region2) /\
    bytes_of w3 key2 = Some (cells region2).
Proof.
  split; [reflexivity|]. split; [exact region2_has_bytes|].
  exact (copy_needs_read_access two_keys key2 region2 eq_refl
           region2_has_bytes).
Defined.


Lemma add_is_repeated_increment_witness :
  little_endian /\
  length (Nonce.noncedata (N := 2) (Nonce.Make [xfe; xff])) = 2%nat /\
  let a : Nonce.t 2 := Nonce.Make [xfe; xff] in
  let a_k := Nat.iter 5 Nonce.increment a in
  let b := Nat.iter 5 Nonce.increment (Nonce.Make (replicate 2 x00)) in
  Nonce.ne (Nonce.add_assign a b) a_k = false /\
  (Z.of_nat 5 < 256 ^ Z.of_nat 2 ->
   (Nonce.gt a a_k = true <->
    256 ^ Z.of_nat 2 <= le_value (Nonce.noncedata a) + Z.of_nat 5)).
Proof.
  split; [exact stand_in_numbers_little_endian|]. split; [reflexivity|].
  exact (add_is_repeated_increment 2 (Nonce.Make [xfe; xff]) 5
           stand_in_numbers_little_endian eq_refl).
Defined.

Lemma increments_reach_zero_witness :
  little_endian /\
  (Nonce.is_zero (N := 1)
     (Nat.iter 256 Nonce.increment (Nonce.Make (replicate 1 x00))) = true
   <-> Z.of_nat 256 mod 256 ^ Z.of_nat 1 = 0) /\
  (Nonce.is_zero (N := 1)
     (Nat.iter 5 Nonce.increment (Nonce.Make (replicate 1 x00))) = true
   <-> Z.of_nat 5 mod 256 ^ Z.of_nat 1 = 0).
Proof.
  split; [exact stand_in_numbers_little_endian|]. split.
  - exact (increments_reach_zero 1 256 stand_in_numbers_little_endian).
  - exact (increments_reach_zero 1 5 stand_in_numbers_little_endian).
Defined.

End MoreExamples.
